(** * Gravitino web console: the login page

    A shallow embedding of [web/src/app/login/page.js]: the form
    (defaultValues, the yup schema, react-hook-form's [handleSubmit] and
    [reset]), the two handlers [onSubmit] and [onError], and the effect that
    looks at [store.intervalId].  The page talks to the redux slice
    [@/lib/store/auth]; the slice is modelled below as the session refresh
    scheduler the design document describes. *)

From stdpp Require Import base strings list gmap.

Local Open Scope string_scope.
Local Open Scope list_scope.

(** ** Form data *)

(** The object handed to [useForm] and to [onSubmit]: four string-valued
    keys. *)
Record Values := mkValues {
  grant_type : string;
  client_id : string;
  client_secret : string;
  scope : string
}.

Definition defaultValues : Values :=
  {| grant_type := "client_credentials";
     client_id := "";
     client_secret := "";
     scope := "" |}.

(** [data[name]]: property read by key.  A key that is not one of the four
    reads as [undefined]. *)
Definition get (name : string) (data : Values) : option string :=
  if decide (name = "grant_type") then Some (grant_type data)
  else if decide (name = "client_id") then Some (client_id data)
  else if decide (name = "client_secret") then Some (client_secret data)
  else if decide (name = "scope") then Some (scope data)
  else None.

(** [data[name] = v] as the form's field registry does it: only registered
    fields exist. *)
Definition set (name : string) (v : string) (data : Values) : Values :=
  if decide (name = "grant_type") then
    {| grant_type := v; client_id := client_id data;
       client_secret := client_secret data; scope := scope data |}
  else if decide (name = "client_id") then
    {| grant_type := grant_type data; client_id := v;
       client_secret := client_secret data; scope := scope data |}
  else if decide (name = "client_secret") then
    {| grant_type := grant_type data; client_id := client_id data;
       client_secret := v; scope := scope data |}
  else if decide (name = "scope") then
    {| grant_type := grant_type data; client_id := client_id data;
       client_secret := client_secret data; scope := v |}
  else data.

(** ** The yup schema *)

(** One entry of [formState.errors]. *)
Record FieldError := mkFieldError {
  type : string;
  message : string
}.

(** [yup.string().required()] on a string value: the empty string is
    rejected, any other string (blank ones included) passes. *)
Definition required (path : string) (value : option string) : option FieldError :=
  match value with
  | Some "" | None =>
      Some {| type := "required"; message := path +:+ " is a required field" |}
  | Some _ => None
  end.

(** [yup.object().shape({...})]: the keys in declaration order, each with
    the rule [string().required()]. *)
Definition schema : list string :=
  ["grant_type"; "client_id"; "client_secret"; "scope"].

(** [yupResolver(schema)]: every key is checked (no early abort) and the
    failures are gathered into an object keyed by field name. *)
Definition yupResolver (shape : list string) (data : Values) : gmap string FieldError :=
  foldr (fun name errs =>
           match required name (get name data) with
           | Some e => <[name := e]> errs
           | None => errs
           end) ∅ shape.

(** ** react-hook-form state *)

Record FormState := mkFormState {
  values : Values;
  initialValues : Values;
  errors : gmap string FieldError
}.

(** [useForm({ defaultValues: Object.assign({}, defaultValues), ... })] *)
Definition useForm (defaults : Values) : FormState :=
  {| values := defaults; initialValues := defaults; errors := ∅ |}.

(** ** The auth slice and its surroundings *)

(** What the authentication endpoint answers to one exchange. *)
Inductive Response :=
| Granted (access_token : string) (expires_in : N)
| AuthError.

(** [state.auth], as far as the page and the scheduler use it. *)
Record AuthState := mkAuthState {
  authToken : option string;
  expiredIn : option N;
  intervalId : option N
}.

Definition initialState : AuthState :=
  {| authToken := None; expiredIn := None; intervalId := None |}.

(** The [router] object of [useRouter()]; the page only passes it on. *)
Inductive Router := useRouter.

(** Redux actions the page can build. *)
Inductive Action :=
| LoginAction (params : Values) (router : Router)
| SetIntervalIdAction
| ClearIntervalId.

(** The action creators imported from [@/lib/store/auth].  Calling one
    builds an action object and does nothing else. *)
Definition loginAction (params : Values) (router : Router) : Action :=
  LoginAction params router.
Definition setIntervalIdAction (_ : unit) : Action := SetIntervalIdAction.
Definition clearIntervalId (_ : unit) : Action := ClearIntervalId.

(** Calls that leave the page, in the order they are made. *)
Inductive Call :=
| Dispatch (a : Action)
| Exchange (request : Values)
| SetInterval (h : N)
| ClearInterval (h : N)
| ConsoleError (text : string) (errs : gmap string FieldError).

(** Everything a handler of the page can read or change. *)
Record World := mkWorld {
  auth : AuthState;
  timers : gset N;
  nextId : N;
  net : list Response;
  form : FormState;
  trace : list Call
}.

(** A page freshly mounted over an untouched store; [answers] is what the
    endpoint will say to the exchanges to come. *)
Definition mount (answers : list Response) : World :=
  {| auth := initialState; timers := ∅; nextId := 1; net := answers;
     form := useForm defaultValues; trace := [] |}.

(** The part of the world that is state (everything but the record of
    calls). *)
Definition state (w : World) : AuthState * gset N * N * list Response * FormState :=
  (auth w, timers w, nextId w, net w, form w).

(** Number of interval timers the host keeps running. *)
Definition live (w : World) : nat := size (timers w).

(** ** Handlers as state transformers *)

Definition M (A : Type) : Type := World -> A * World.

#[global] Instance M_ret : MRet M := fun A (x : A) w => (x, w).
#[global] Instance M_bind : MBind M :=
  fun A B (k : A -> M B) (c : M A) w => let (x, w') := c w in k x w'.

Definition exec {A} (c : M A) (w : World) : World := snd (c w).

Definition emit (c : Call) : M unit := fun w =>
  (tt, {| auth := auth w; timers := timers w; nextId := nextId w; net := net w;
          form := form w; trace := trace w ++ [c] |}).

Definition getState : M AuthState := fun w => (auth w, w).

Definition putState (s : AuthState) : M unit := fun w =>
  (tt, {| auth := s; timers := timers w; nextId := nextId w; net := net w;
          form := form w; trace := trace w |}).

Definition getForm : M FormState := fun w => (form w, w).

Definition putForm (f : FormState) : M unit := fun w =>
  (tt, {| auth := auth w; timers := timers w; nextId := nextId w; net := net w;
          form := f; trace := trace w |}).

(** The host's [setInterval]: a handle never handed out before, now live. *)
Definition setInterval : M N := fun w =>
  (nextId w,
   {| auth := auth w; timers := {[nextId w]} ∪ timers w; nextId := (nextId w + 1)%N;
      net := net w; form := form w; trace := trace w ++ [SetInterval (nextId w)] |}).

(** The host's [clearInterval]. *)
Definition clearInterval (h : N) : M unit := fun w =>
  (tt, {| auth := auth w; timers := timers w ∖ {[h]}; nextId := nextId w;
          net := net w; form := form w; trace := trace w ++ [ClearInterval h] |}).

(** One request to the authentication endpoint.  An endpoint with nothing
    left to say is unreachable. *)
Definition fetchToken (request : Values) : M Response := fun w =>
  (match net w with r :: _ => r | [] => AuthError end,
   {| auth := auth w; timers := timers w; nextId := nextId w; net := tail (net w);
      form := form w; trace := trace w ++ [Exchange request] |}).

(** JavaScript truthiness of [store.intervalId]: [null] and [0] are falsy. *)
Definition truthy (id : option N) : bool :=
  match id with
  | Some h => negb (h =? 0)%N
  | None => false
  end.

(** ** The slice [@/lib/store/auth] *)

(** Modelled from the spec: the thunk behind [loginAction], which is the
    Token Exchange Client.  One attempt per call and no retry; a granted
    exchange creates the session (token and validity), a failed one signals
    the error without throwing to the caller and creates nothing. *)
Definition loginThunk (params : Values) (router : Router) : M unit :=
  r ← fetchToken params;
  match r with
  | Granted access_token expires_in =>
      s ← getState;
      putState {| authToken := Some access_token; expiredIn := Some expires_in;
                  intervalId := intervalId s |}
  | AuthError => mret tt
  end.

(** Modelled from the spec: the reducer behind [clearIntervalId], the
    scheduler's cancellation.  A stored handle is cancelled and forgotten;
    with none stored nothing happens. *)
Definition clearIntervalIdReducer : M unit :=
  s ← getState;
  if truthy (intervalId s) then
    match intervalId s with
    | Some h =>
        clearInterval h;;
        putState {| authToken := authToken s; expiredIn := expiredIn s;
                    intervalId := None |}
    | None => mret tt
    end
  else mret tt.

(** Modelled from the spec: the thunk behind [setIntervalIdAction], the
    scheduler's transition to Active.  The transition is triggered by a
    successful token exchange: without a session nothing is scheduled.  With
    one, any pre-existing handle is cancelled before the new one is created,
    one recurring timer is scheduled and its handle kept in
    [state.auth.intervalId]. *)
Definition setIntervalIdThunk : M unit :=
  s ← getState;
  match authToken s with
  | None => mret tt
  | Some _ =>
      clearIntervalIdReducer;;
      h ← setInterval;
      s' ← getState;
      putState {| authToken := authToken s'; expiredIn := expiredIn s';
                  intervalId := Some h |}
  end.

(** [dispatch(action)] of [useAppDispatch()]: the only way an action reaches
    the store. *)
Definition dispatch (a : Action) : M unit :=
  emit (Dispatch a);;
  match a with
  | LoginAction params router => loginThunk params router
  | SetIntervalIdAction => setIntervalIdThunk
  | ClearIntervalId => clearIntervalIdReducer
  end.

(** ** The page *)

(** [useAppSelector(state => state.auth)] *)
Definition useAppSelector : M AuthState := getState.

(** [reset(values)] of react-hook-form: the given values become both the
    field values and the defaults, and the errors are dropped. *)
Definition reset (data : Values) : M unit :=
  putForm {| values := data; initialValues := data; errors := ∅ |}.

(** <<
    useEffect(() => {
      if (store.intervalId) {
        clearIntervalId()
      }
    }, [store.intervalId])
    >> *)
Definition intervalEffect : M unit :=
  store ← useAppSelector;
  if truthy (intervalId store) then
    let _ := clearIntervalId tt in
    mret tt
  else mret tt.

(** <<
    const onSubmit = async data => {
      await dispatch(loginAction({ params: data, router }))
      await dispatch(setIntervalIdAction())
      reset({ ...data })
    }
    >> *)
Definition onSubmit (data : Values) : M unit :=
  dispatch (loginAction data useRouter);;
  dispatch (setIntervalIdAction tt);;
  reset data.

(** <<
    const onError = errors => {
      console.error('fields error', errors)
    }
    >> *)
Definition onError (errs : gmap string FieldError) : M unit :=
  emit (ConsoleError "fields error" errs).

(** [handleSubmit(onValid, onInvalid)] of react-hook-form with a resolver:
    the resolver runs over the current field values, its errors become
    [formState.errors], and exactly one of the two callbacks is called. *)
Definition handleSubmit (onValid : Values -> M unit)
    (onInvalid : gmap string FieldError -> M unit) : M unit :=
  f ← getForm;
  let errs := yupResolver schema (values f) in
  putForm {| values := values f; initialValues := initialValues f; errors := errs |};;
  if decide (errs = ∅) then onValid (values f) else onInvalid errs.

(** The [disabled] attribute of the rendered text fields: only the Grant
    Type field carries it. *)
Definition disabled (name : string) : bool := bool_decide (name = "grant_type").

(** [onChange] of a [Controller] in mode ['onChange']: the field takes the
    typed value and its own entry of [formState.errors] is brought up to
    date. *)
Definition onChange (name value : string) : M unit :=
  f ← getForm;
  let data := set name value (values f) in
  putForm {| values := data; initialValues := initialValues f;
             errors := match yupResolver schema data !! name with
                       | Some e => <[name := e]> (errors f)
                       | None => delete name (errors f)
                       end |}.

(** What the helper text under a field shows:
    [errors.client_id && <FormHelperText>{errors.client_id.message}</FormHelperText>]. *)
Definition helperText (f : FormState) (name : string) : option string :=
  message <$> errors f !! name.

(** What the user can do on the page: come to it, type into a field, press
    the Login button. *)
Inductive Event :=
| Visit
| Input (name value : string)
| Login.

(** The handler an event reaches.  Coming to the page mounts it with a new
    form; a disabled field takes no input. *)
Definition handle (e : Event) : M unit :=
  match e with
  | Visit => putForm (useForm defaultValues)
  | Input name value => if disabled name then mret tt else onChange name value
  | Login => handleSubmit onSubmit onError
  end.

(** One event and the render that follows it: the effect runs on mount and
    whenever its dependency [store.intervalId] has changed. *)
Definition step (e : Event) : M unit :=
  before ← useAppSelector;
  handle e;;
  after ← useAppSelector;
  match e with
  | Visit => intervalEffect
  | _ => if decide (intervalId before = intervalId after) then mret tt
         else intervalEffect
  end.

Fixpoint run (es : list Event) (w : World) : World :=
  match es with
  | [] => w
  | e :: es' => run es' (exec (step e) w)
  end.

(** ** The session beyond the page *)

Definition getTimers : M (gset N) := fun w => (timers w, w).

(** Modelled from the spec: logout, the explicit cancellation that takes the
    scheduler from Active to Idle; the session is destroyed. *)
Definition logout : M unit :=
  clearIntervalIdReducer;;
  s ← getState;
  putState {| authToken := None; expiredIn := None; intervalId := intervalId s |}.

(** Modelled from the spec: the callback of the refresh timer with handle
    [h], re-sending [request].  A cancelled timer does not fire.  On firing
    one new exchange is attempted; on success the token is replaced and the
    timer rescheduled, on failure the scheduler goes Idle and the session is
    destroyed. *)
Definition refreshToken (h : N) (request : Values) : M unit :=
  ts ← getTimers;
  if decide (h ∈ ts) then
    r ← fetchToken request;
    match r with
    | Granted access_token expires_in =>
        s ← getState;
        putState {| authToken := Some access_token; expiredIn := Some expires_in;
                    intervalId := intervalId s |};;
        setIntervalIdThunk
    | AuthError =>
        clearIntervalIdReducer;;
        s ← getState;
        putState {| authToken := None; expiredIn := None;
                    intervalId := intervalId s |}
    end
  else mret tt.

(** What can happen to a session: anything on the login page (a press of
    Login is a login, granted or refused by the endpoint's answer), a
    logout, and a refresh timer firing (a refresh, succeeding or failing by
    the endpoint's answer). *)
Inductive SessionEvent :=
| OnPage (e : Event)
| Logout
| TimerFires (h : N) (request : Values).

Definition sessionStep (e : SessionEvent) : M unit :=
  match e with
  | OnPage e => step e
  | Logout => logout
  | TimerFires h request => refreshToken h request
  end.

Fixpoint sessionRun (es : list SessionEvent) (w : World) : World :=
  match es with
  | [] => w
  | e :: es' => sessionRun es' (exec (sessionStep e) w)
  end.

(** The host's timer table after one more call. *)
Definition hostStep (ts : gset N) (c : Call) : gset N :=
  match c with
  | SetInterval h => {[h]} ∪ ts
  | ClearInterval h => ts ∖ {[h]}
  | _ => ts
  end.

(** The timers live after the calls [t], made from an empty table. *)
Definition replay (t : list Call) : gset N := foldl hostStep ∅ t.

(** From the table [ts] on, at most one timer is live after each of the
    calls. *)
Fixpoint atMostOne (ts : gset N) (calls : list Call) : Prop :=
  match calls with
  | [] => True
  | c :: rest => size (hostStep ts c) <= 1 /\ atMostOne (hostStep ts c) rest
  end.

(** The timer the store knows of. *)
Definition stored (s : AuthState) : gset N :=
  match intervalId s with
  | Some h => if truthy (Some h) then {[h]} else ∅
  | None => ∅
  end.

(** The scheduler's invariant: the only live timer is the one whose handle
    the store holds, the host's table is what the calls made so far leave
    of it, at no point of these calls was more than one timer live, and
    handles are truthy. *)
Definition oneTimer (w : World) : Prop :=
  timers w = stored (auth w)
  /\ replay (trace w) = timers w
  /\ atMostOne ∅ (trace w)
  /\ nextId w <> 0%N.

(** The host calls of the scheduler's start in store state [s], when the
    next handle is [h]. *)
Definition schedulerCalls (s : AuthState) (h : N) : list Call :=
  match authToken s with
  | None => []
  | Some _ =>
      match intervalId s with
      | Some old => if truthy (Some old) then [ClearInterval old] else []
      | None => []
      end ++ [SetInterval h]
  end.

(** The requests that went to the endpoint. *)
Definition exchanges (t : list Call) : list Values :=
  omap (fun c => match c with Exchange r => Some r | _ => None end) t.

(** The actions that were dispatched. *)
Definition dispatched (t : list Call) : list Action :=
  omap (fun c => match c with Dispatch a => Some a | _ => None end) t.

Definition filled (a b c : string) : list Event :=
  [Input "client_id" a; Input "client_secret" b; Input "scope" c].

(** ** Observations *)

(** The single grant type this flow supports. *)
Definition supported (data : Values) : Prop :=
  grant_type data = "client_credentials".

(** A request with all four fields filled in. *)
Definition complete (data : Values) : Prop :=
  grant_type data <> "" /\ client_id data <> "" /\
  client_secret data <> "" /\ scope data <> "".

(** The world once the resolver has run over the current field values. *)
Definition validated (w : World) : World :=
  {| auth := auth w; timers := timers w; nextId := nextId w; net := net w;
     form := {| values := values (form w); initialValues := initialValues (form w);
                errors := yupResolver schema (values (form w)) |};
     trace := trace w |}.

(** The invariant carried along a run. *)
Definition grantTypeFixed (w : World) : Prop :=
  supported (values (form w))
  /\ Forall supported (exchanges (trace w))
  /\ Forall (fun a => match a with
                      | LoginAction params _ => supported params
                      | _ => True
                      end) (dispatched (trace w)).

(** The entry yup reports for a required field left empty. *)
Definition requiredError (name : string) : FieldError :=
  {| type := "required"; message := name +:+ " is a required field" |}.

(** No entry of [formState.errors] is out of date: each one is what the
    resolver says about the field values as they are now. *)
Definition errorsCurrent (f : FormState) : Prop :=
  forall name e,
    errors f !! name = Some e -> yupResolver schema (values f) !! name = Some e.

(** The two dispatches one validated submission makes. *)
Definition submissionActions (data : Values) : list Action :=
  [loginAction data useRouter; setIntervalIdAction tt].


(** * Properties *)

(** ** Sanity checks *)

Example resolver_defaults :
  yupResolver schema defaultValues !! "client_id"
  = Some {| type := "required"; message := "client_id is a required field" |}.
Proof. vm_compute. reflexivity. Qed.

Example resolver_defaults_size : size (yupResolver schema defaultValues) = 3.
Proof. vm_compute. reflexivity. Qed.

Example ex_login_ok :
  let w := run (filled "a" "b" "c" ++ [Login]) (mount [Granted "t" 3000]) in
  trace w = [Dispatch (loginAction (mkValues "client_credentials" "a" "b" "c") useRouter);
             Exchange (mkValues "client_credentials" "a" "b" "c");
             Dispatch SetIntervalIdAction; SetInterval 1]
  /\ live w = 1 /\ auth w = mkAuthState (Some "t") (Some 3000%N) (Some 1%N).
Proof. vm_compute. auto. Qed.

(** ** The resolver *)

Lemma resolver_lookup (shape : list string) (data : Values) (name : string) :
  yupResolver shape data !! name
  = if decide (name ∈ shape) then required name (get name data) else None.
Proof.
  induction shape as [|n rest IH].
  - unfold yupResolver; simpl. by rewrite lookup_empty.
  - change (yupResolver (n :: rest) data)
      with (match required n (get n data) with
            | Some e => <[n := e]> (yupResolver rest data)
            | None => yupResolver rest data
            end).
    destruct (decide (n = name)) as [->|Hne].
    + rewrite (decide_True (P := name ∈ name :: rest)) by apply list_elem_of_here.
      destruct (required name (get name data)) as [e|] eqn:E.
      * by rewrite lookup_insert_eq.
      * rewrite IH. by case_decide.
    + assert (yupResolver rest data !! name
              = if decide (name ∈ n :: rest) then required name (get name data) else None)
        as Hrest.
      { rewrite IH. destruct (decide (name ∈ rest)) as [Hin|Hout].
        - rewrite decide_True; [done|by apply list_elem_of_further].
        - rewrite decide_False; [done|].
          intros [E|Hin]%elem_of_cons; [by apply Hne|by apply Hout]. }
      destruct (required n (get n data)); [by rewrite lookup_insert_ne|done].
Qed.

Lemma required_none (path : string) (value : option string) :
  required path value = None <-> exists s, value = Some s /\ s <> "".
Proof.
  split.
  - destruct value as [[|a s]|]; simpl; try discriminate. intros _. by eexists.
  - intros (s & -> & Hs). by destruct s.
Qed.

Lemma get_grant_type data : get "grant_type" data = Some (grant_type data).
Proof. reflexivity. Qed.
Lemma get_client_id data : get "client_id" data = Some (client_id data).
Proof. reflexivity. Qed.
Lemma get_client_secret data : get "client_secret" data = Some (client_secret data).
Proof. reflexivity. Qed.
Lemma get_scope data : get "scope" data = Some (scope data).
Proof. reflexivity. Qed.

Lemma resolver_empty (data : Values) :
  yupResolver schema data = ∅ <-> complete data.
Proof.
  unfold complete. split.
  - intros H.
    assert (forall name, name ∈ schema -> exists s, get name data = Some s /\ s <> "") as Hall.
    { intros name Hin. apply (proj1 (required_none name _)).
      pose proof (resolver_lookup schema data name) as L.
      rewrite H, lookup_empty, decide_True in L by done. done. }
    repeat split.
    + destruct (Hall "grant_type") as (s & [= <-] & ?); [set_solver|done].
    + destruct (Hall "client_id") as (s & [= <-] & ?); [set_solver|done].
    + destruct (Hall "client_secret") as (s & [= <-] & ?); [set_solver|done].
    + destruct (Hall "scope") as (s & [= <-] & ?); [set_solver|done].
  - intros (H1 & H2 & H3 & H4). apply map_eq. intros name.
    rewrite resolver_lookup, lookup_empty. case_decide as Hin; [|done].
    apply (proj2 (required_none name _)). unfold schema in Hin.
    repeat (apply elem_of_cons in Hin as [->|Hin]); [by eexists..|].
    by apply elem_of_nil in Hin.
Qed.

Lemma resolver_nonempty (data : Values) :
  grant_type data = "" \/ client_id data = "" \/
  client_secret data = "" \/ scope data = "" ->
  yupResolver schema data <> ∅.
Proof.
  intros H E. apply resolver_empty in E as (? & ? & ? & ?).
  destruct H as [?|[?|[?|?]]]; congruence.
Qed.

(** ** Submission *)

#[local] Arguments yupResolver : simpl never.

Lemma handleSubmit_invalid onValid onInvalid (w : World) :
  yupResolver schema (values (form w)) <> ∅ ->
  handleSubmit onValid onInvalid w
  = onInvalid (yupResolver schema (values (form w))) (validated w).
Proof.
  intros H. unfold handleSubmit, mbind, M_bind, getForm, putForm. simpl.
  by rewrite decide_False.
Qed.

Lemma handleSubmit_valid onValid onInvalid (w : World) :
  yupResolver schema (values (form w)) = ∅ ->
  handleSubmit onValid onInvalid w = onValid (values (form w)) (validated w).
Proof.
  intros H. unfold handleSubmit, mbind, M_bind, getForm, putForm. simpl.
  by rewrite decide_True.
Qed.

(** Runs the two dispatches and the reset of [onSubmit] on [w], one case
    per answer the endpoint can give and per state the scheduler can find. *)
Ltac submission w :=
  unfold exec, onSubmit, dispatch, loginThunk, setIntervalIdThunk,
    clearIntervalIdReducer, schedulerCalls, reset, mbind, M_bind;
  simpl;
  destruct (net w) as [|[? ?|] ?]; simpl;
  try destruct (authToken (auth w)); simpl;
  try (destruct (intervalId (auth w)) as [?h|]; simpl;
       [destruct (_ =? 0)%N; simpl|]).

Lemma onSubmit_trace (data : Values) (w : World) :
  trace (exec (onSubmit data) w)
  = trace w
    ++ [Dispatch (loginAction data useRouter); Exchange data;
        Dispatch (setIntervalIdAction tt)]
    ++ schedulerCalls (auth (exec (loginThunk data useRouter) w)) (nextId w).
Proof.
  submission w; by rewrite <- ?app_assoc.
Qed.

Lemma schedulerCalls_quiet (s : AuthState) (h : N) :
  exchanges (schedulerCalls s h) = [] /\ dispatched (schedulerCalls s h) = [].
Proof.
  unfold schedulerCalls. destruct (authToken s); [|done].
  destruct (intervalId s) as [old|]; [|done]. simpl. by destruct (old =? 0)%N.
Qed.

Lemma loginThunk_validated (data : Values) (w : World) :
  auth (exec (loginThunk data useRouter) (validated w))
  = auth (exec (loginThunk data useRouter) w).
Proof.
  unfold exec, loginThunk, mbind, M_bind. simpl.
  by destruct (net w) as [|[? ?|] ?].
Qed.

Lemma onSubmit_form (data : Values) (w : World) :
  form (exec (onSubmit data) w)
  = {| values := data; initialValues := data; errors := ∅ |}.
Proof.
  by submission w.
Qed.

Lemma onSubmit_net (data : Values) (w : World) :
  net (exec (onSubmit data) w) = tail (net w).
Proof.
  by submission w.
Qed.

(** A validated submission, as far as the calls it makes go. *)
Lemma submit_valid_trace (w : World) :
  yupResolver schema (values (form w)) = ∅ ->
  trace (exec (handleSubmit onSubmit onError) w)
  = trace w
    ++ [Dispatch (loginAction (values (form w)) useRouter);
        Exchange (values (form w));
        Dispatch (setIntervalIdAction tt)]
    ++ schedulerCalls
         (auth (exec (loginThunk (values (form w)) useRouter) w)) (nextId w).
Proof.
  intros H. unfold exec at 1. rewrite handleSubmit_valid by done.
  pose proof (onSubmit_trace (values (form w)) (validated w)) as Ht.
  rewrite loginThunk_validated in Ht. exact Ht.
Qed.

Lemma submit_valid_form (w : World) :
  yupResolver schema (values (form w)) = ∅ ->
  form (exec (handleSubmit onSubmit onError) w)
  = {| values := values (form w); initialValues := values (form w);
       errors := ∅ |}.
Proof.
  intros H. unfold exec. rewrite handleSubmit_valid by done.
  apply (onSubmit_form (values (form w)) (validated w)).
Qed.

Lemma submit_valid_calls (w : World) :
  yupResolver schema (values (form w)) = ∅ ->
  exchanges (trace (exec (handleSubmit onSubmit onError) w))
  = exchanges (trace w) ++ [values (form w)]
  /\ dispatched (trace (exec (handleSubmit onSubmit onError) w))
     = dispatched (trace w)
       ++ [loginAction (values (form w)) useRouter; setIntervalIdAction tt].
Proof.
  intros H. rewrite submit_valid_trace by done.
  unfold exchanges, dispatched. rewrite !omap_app.
  destruct (schedulerCalls_quiet
              (auth (exec (loginThunk (values (form w)) useRouter) w)) (nextId w))
    as [Hx Hd].
  unfold exchanges, dispatched in Hx, Hd. rewrite Hx, Hd. simpl.
  by rewrite ?app_nil_r.
Qed.

Lemma exchanges_snoc (t : list Call) (c : Call) :
  exchanges (t ++ [c])
  = exchanges t ++ match c with Exchange r => [r] | _ => [] end.
Proof. unfold exchanges. rewrite omap_app. by destruct c. Qed.

Lemma dispatched_snoc (t : list Call) (c : Call) :
  dispatched (t ++ [c])
  = dispatched t ++ match c with Dispatch a => [a] | _ => [] end.
Proof. unfold dispatched. rewrite omap_app. by destruct c. Qed.

(** C3: a request with an empty field is turned away before anything leaves
    the page: validation fails, [handleSubmit] never calls the submit
    handler and calls the error handler instead, so no exchange is made and
    no action is dispatched. *)
Theorem empty_field_rejected (w : World) :
  grant_type (values (form w)) = "" \/ client_id (values (form w)) = "" \/
  client_secret (values (form w)) = "" \/ scope (values (form w)) = "" ->
  yupResolver schema (values (form w)) <> ∅
  /\ (forall onValid onInvalid,
        handleSubmit onValid onInvalid w
        = onInvalid (yupResolver schema (values (form w))) (validated w))
  /\ trace (exec (handleSubmit onSubmit onError) w)
     = trace w ++ [ConsoleError "fields error" (yupResolver schema (values (form w)))]
  /\ exchanges (trace (exec (handleSubmit onSubmit onError) w)) = exchanges (trace w)
  /\ dispatched (trace (exec (handleSubmit onSubmit onError) w)) = dispatched (trace w)
  /\ net (exec (handleSubmit onSubmit onError) w) = net w.
Proof.
  intros H%resolver_nonempty. split; [done|]. split.
  { intros. by apply handleSubmit_invalid. }
  unfold exec. rewrite handleSubmit_invalid by done. simpl.
  rewrite exchanges_snoc, dispatched_snoc, !app_nil_r. done.
Qed.

Lemma empty_field_rejected_witness :
  client_id (values (form (mount [Granted "t" 3000]))) = ""
  /\ trace (exec (handleSubmit onSubmit onError) (mount [Granted "t" 3000]))
     = [ConsoleError "fields error" (yupResolver schema defaultValues)]
  /\ net (exec (handleSubmit onSubmit onError) (mount [Granted "t" 3000]))
     = [Granted "t" 3000].
Proof.
  split; [reflexivity|].
  destruct (empty_field_rejected (mount [Granted "t" 3000])) as (_ & _ & Ht & _ & _ & Hn).
  - right. left. reflexivity.
  - split; [exact Ht | exact Hn].
Defined.

(** C6: a submission that passes validation makes exactly one request to the
    endpoint, through the single dispatch of [loginAction], and the request
    comes before the scheduler is started: the calls are the login dispatch,
    the one exchange, the scheduler dispatch, and then whatever the
    scheduler asks of the host. *)
Theorem one_exchange_then_scheduler (w : World) :
  complete (values (form w)) ->
  trace (exec (handleSubmit onSubmit onError) w)
  = trace w
    ++ [Dispatch (loginAction (values (form w)) useRouter);
        Exchange (values (form w));
        Dispatch (setIntervalIdAction tt)]
    ++ schedulerCalls
         (auth (exec (loginThunk (values (form w)) useRouter) w)) (nextId w)
  /\ exchanges (trace (exec (handleSubmit onSubmit onError) w))
     = exchanges (trace w) ++ [values (form w)]
  /\ dispatched (trace (exec (handleSubmit onSubmit onError) w))
     = dispatched (trace w)
       ++ [loginAction (values (form w)) useRouter; setIntervalIdAction tt]
  /\ net (exec (handleSubmit onSubmit onError) w) = tail (net w).
Proof.
  intros H%resolver_empty.
  split; [by apply submit_valid_trace|].
  destruct (submit_valid_calls w H) as [Hx Hd]. repeat split; [done..|].
  unfold exec. rewrite handleSubmit_valid by done.
  apply (onSubmit_net (values (form w)) (validated w)).
Qed.

Lemma one_exchange_then_scheduler_witness :
  let w := run (filled "a" "b" "c") (mount [Granted "t" 3000]) in
  complete (values (form w))
  /\ exchanges (trace (exec (handleSubmit onSubmit onError) w))
     = [mkValues "client_credentials" "a" "b" "c"].
Proof.
  assert (complete (values (form (run (filled "a" "b" "c") (mount [Granted "t" 3000])))))
    as Hc by (vm_compute; repeat split; discriminate).
  split; [exact Hc|].
  exact (proj1 (proj2 (one_exchange_then_scheduler _ Hc))).
Defined.

(** C7: a failed validation touches nothing but the form's own error state
    and the console: the store, the timers and the endpoint are left alone,
    the field values stay, the errors are logged once, nothing is dispatched
    or retried, and each field shows the message of its own error. *)
Theorem validation_failure_is_local (w : World) :
  yupResolver schema (values (form w)) <> ∅ ->
  auth (exec (handleSubmit onSubmit onError) w) = auth w
  /\ timers (exec (handleSubmit onSubmit onError) w) = timers w
  /\ nextId (exec (handleSubmit onSubmit onError) w) = nextId w
  /\ net (exec (handleSubmit onSubmit onError) w) = net w
  /\ values (form (exec (handleSubmit onSubmit onError) w)) = values (form w)
  /\ initialValues (form (exec (handleSubmit onSubmit onError) w))
     = initialValues (form w)
  /\ trace (exec (handleSubmit onSubmit onError) w)
     = trace w ++ [ConsoleError "fields error" (yupResolver schema (values (form w)))]
  /\ dispatched (trace (exec (handleSubmit onSubmit onError) w)) = dispatched (trace w)
  /\ exchanges (trace (exec (handleSubmit onSubmit onError) w)) = exchanges (trace w)
  /\ forall name, name ∈ schema ->
       helperText (form (exec (handleSubmit onSubmit onError) w)) name
       = if decide (get name (values (form w)) = Some "")
         then Some (name +:+ " is a required field") else None.
Proof.
  intros H. unfold exec. rewrite handleSubmit_invalid by done. simpl.
  rewrite dispatched_snoc, exchanges_snoc, !app_nil_r.
  repeat (split; [done|]). intros name Hin.
  unfold helperText. simpl. rewrite resolver_lookup, decide_True by done.
  unfold schema in Hin.
  repeat (apply elem_of_cons in Hin as [->|Hin]);
    [| | | |by apply elem_of_nil in Hin].
  - rewrite get_grant_type. by destruct (grant_type (values (form w))).
  - rewrite get_client_id. by destruct (client_id (values (form w))).
  - rewrite get_client_secret. by destruct (client_secret (values (form w))).
  - rewrite get_scope. by destruct (scope (values (form w))).
Qed.

Lemma validation_failure_is_local_witness :
  yupResolver schema (values (form (mount []))) <> ∅
  /\ helperText (form (exec (handleSubmit onSubmit onError) (mount []))) "scope"
     = Some "scope is a required field"
  /\ helperText (form (exec (handleSubmit onSubmit onError) (mount []))) "grant_type"
     = None.
Proof.
  assert (yupResolver schema (values (form (mount []))) <> ∅) as Hne.
  { apply resolver_nonempty. right. left. reflexivity. }
  split; [exact Hne|].
  pose proof (validation_failure_is_local (mount []) Hne) as (_&_&_&_&_&_&_&_&_&Hh).
  split.
  - rewrite (Hh "scope") by (vm_compute; set_solver). reflexivity.
  - rewrite (Hh "grant_type") by (vm_compute; set_solver). reflexivity.
Defined.

(** C8: once a validated submission has gone through both dispatches, the
    form holds exactly the submitted values again (as values and as
    defaults), whatever the endpoint answered. *)
Theorem submitted_values_kept (w : World) :
  complete (values (form w)) ->
  form (exec (handleSubmit onSubmit onError) w)
  = {| values := values (form w); initialValues := values (form w); errors := ∅ |}
  /\ dispatched (trace (exec (handleSubmit onSubmit onError) w))
     = dispatched (trace w)
       ++ [loginAction (values (form w)) useRouter; setIntervalIdAction tt].
Proof.
  intros H%resolver_empty.
  split; [by apply submit_valid_form|by apply submit_valid_calls].
Qed.

Lemma submitted_values_kept_witness :
  let w := run (filled "a" "b" "c") (mount [AuthError]) in
  complete (values (form w))
  /\ values (form (exec (handleSubmit onSubmit onError) w))
     = mkValues "client_credentials" "a" "b" "c".
Proof.
  assert (complete (values (form (run (filled "a" "b" "c") (mount [AuthError])))))
    as Hc by (vm_compute; repeat split; discriminate).
  split; [exact Hc|].
  rewrite (proj1 (submitted_values_kept _ Hc)). reflexivity.
Defined.

(** C9: the form as first rendered cannot be submitted.  Its defaults leave
    client_id, client_secret and scope empty, the resolver reports exactly
    these three, and submitting takes the error path: one console message,
    nothing dispatched, no exchange, store and timers untouched. *)
Theorem untouched_form_not_submitted (a : AuthState) (ts : gset N) (n : N)
    (answers : list Response) (t : list Call) :
  dom (yupResolver schema defaultValues)
  = {["client_id"; "client_secret"; "scope"]}
  /\ trace (exec (handleSubmit onSubmit onError)
              (mkWorld a ts n answers (useForm defaultValues) t))
     = t ++ [ConsoleError "fields error" (yupResolver schema defaultValues)]
  /\ dispatched (trace (exec (handleSubmit onSubmit onError)
                          (mkWorld a ts n answers (useForm defaultValues) t)))
     = dispatched t
  /\ exchanges (trace (exec (handleSubmit onSubmit onError)
                         (mkWorld a ts n answers (useForm defaultValues) t)))
     = exchanges t
  /\ state (exec (handleSubmit onSubmit onError)
              (mkWorld a ts n answers (useForm defaultValues) t))
     = (a, ts, n, answers,
        {| values := defaultValues; initialValues := defaultValues;
           errors := yupResolver schema defaultValues |}).
Proof.
  split; [by vm_compute|].
  assert (yupResolver schema defaultValues <> ∅) as Hne.
  { apply resolver_nonempty. right. left. reflexivity. }
  unfold exec. rewrite handleSubmit_invalid by done. simpl.
  by rewrite dispatched_snoc, exchanges_snoc, !app_nil_r.
Qed.

(** ** The interval effect and the clear operation *)

Lemma intervalEffect_skip (w : World) : intervalEffect w = (tt, w).
Proof.
  unfold intervalEffect, useAppSelector, getState, mbind, M_bind. simpl.
  by destruct (truthy (intervalId (auth w))).
Qed.

(** C10: the effect does not touch the store.  With an interval id in the
    store the effect builds the clear action and drops it: the world after
    the effect is the world before it, so [store.intervalId] keeps its
    value, no timer is cancelled and nothing is dispatched. *)
Theorem effect_leaves_store (w : World) (h : N) :
  intervalId (auth w) = Some h ->
  exec intervalEffect w = w
  /\ intervalId (auth (exec intervalEffect w)) = Some h
  /\ timers (exec intervalEffect w) = timers w
  /\ dispatched (trace (exec intervalEffect w)) = dispatched (trace w).
Proof.
  intros H. unfold exec. rewrite intervalEffect_skip. simpl. by rewrite H.
Qed.

Lemma effect_leaves_store_witness :
  let w := run (filled "a" "b" "c" ++ [Login]) (mount [Granted "t" 3000]) in
  intervalId (auth w) = Some 1%N
  /\ intervalId (auth (exec intervalEffect w)) = Some 1%N
  /\ timers (exec intervalEffect w) = timers w.
Proof.
  assert (intervalId (auth (run (filled "a" "b" "c" ++ [Login])
                              (mount [Granted "t" 3000]))) = Some 1%N)
    as H by reflexivity.
  split; [exact H|].
  pose proof (effect_leaves_store _ _ H) as (_ & Hi & Ht & _).
  split; [exact Hi | exact Ht].
Defined.

(** Had the action been dispatched, the stored handle would be gone and its
    timer cancelled. *)
Lemma dispatched_clear_cancels (w : World) (h : N) :
  intervalId (auth w) = Some h -> h <> 0%N ->
  intervalId (auth (exec (dispatch (clearIntervalId tt)) w)) = None
  /\ timers (exec (dispatch (clearIntervalId tt)) w) = timers w ∖ {[h]}.
Proof.
  intros H Hh. unfold exec, dispatch, clearIntervalIdReducer, mbind, M_bind.
  simpl. rewrite H. simpl.
  destruct (N.eqb_spec h 0); [done|]. by simpl.
Qed.

Lemma clear_idempotent (w : World) :
  exec clearIntervalIdReducer (exec clearIntervalIdReducer w)
  = exec clearIntervalIdReducer w.
Proof.
  unfold exec, clearIntervalIdReducer, mbind, M_bind, getState. simpl.
  destruct (intervalId (auth w)) as [h|] eqn:E; simpl; [|by rewrite E].
  destruct (N.eqb_spec h 0); simpl; [|done]. rewrite E. simpl.
  by destruct (N.eqb_spec h 0).
Qed.

(** C4: clearing an idle scheduler changes nothing.  With no interval id in
    the store the clear operation returns the world as it found it,
    dispatching it reaches no timer and changes no state, the page's effect
    does not even build the action, and clearing twice is clearing once. *)
Theorem clear_idle_noop (w : World) :
  intervalId (auth w) = None ->
  exec clearIntervalIdReducer w = w
  /\ state (exec (dispatch (clearIntervalId tt)) w) = state w
  /\ trace (exec (dispatch (clearIntervalId tt)) w)
     = trace w ++ [Dispatch (clearIntervalId tt)]
  /\ exec intervalEffect w = w
  /\ forall w0, exec clearIntervalIdReducer (exec clearIntervalIdReducer w0)
                = exec clearIntervalIdReducer w0.
Proof.
  intros H.
  assert (forall v, intervalId (auth v) = None -> clearIntervalIdReducer v = (tt, v)) as Hc.
  { intros v Hv. unfold clearIntervalIdReducer, mbind, M_bind, getState. simpl. by rewrite Hv. }
  repeat split.
  - unfold exec. by rewrite Hc.
  - unfold exec, dispatch, mbind, M_bind. simpl. by rewrite Hc.
  - unfold exec, dispatch, mbind, M_bind. simpl. by rewrite Hc.
  - unfold exec. by rewrite intervalEffect_skip.
  - apply clear_idempotent.
Qed.

Lemma clear_idle_noop_witness :
  intervalId (auth (mount [])) = None
  /\ exec clearIntervalIdReducer (mount []) = mount []
  /\ state (exec (dispatch (clearIntervalId tt)) (mount [])) = state (mount []).
Proof.
  split; [reflexivity|].
  pose proof (clear_idle_noop (mount []) eq_refl) as (H1 & H2 & _).
  split; [exact H1 | exact H2].
Defined.

(** ** The grant type *)

Lemma exec_step (e : Event) (w : World) : exec (step e) w = exec (handle e) w.
Proof.
  unfold exec, step, useAppSelector, getState, mbind, M_bind. simpl.
  destruct (handle e w) as [[] w1]. simpl.
  destruct e; rewrite ?intervalEffect_skip; try done;
    destruct (decide _); by rewrite ?intervalEffect_skip.
Qed.

Lemma set_keeps_grant_type (name value : string) (data : Values) :
  disabled name = false -> grant_type (set name value data) = grant_type data.
Proof.
  unfold disabled, set. intros H%bool_decide_eq_false.
  rewrite decide_False by done. by repeat case_decide.
Qed.

Lemma step_grantTypeFixed (e : Event) (w : World) :
  grantTypeFixed w -> grantTypeFixed (exec (step e) w).
Proof.
  intros (Hv & Hx & Hd). rewrite exec_step. destruct e as [|name value|]; simpl.
  - done.
  - destruct (disabled name) eqn:E; [done|].
    unfold exec, onChange, getForm, putForm, mbind, M_bind, grantTypeFixed. simpl.
    unfold supported. by rewrite set_keeps_grant_type.
  - destruct (decide (yupResolver schema (values (form w)) = ∅)) as [Hok|Hbad].
    + destruct (submit_valid_calls w Hok) as [Hx' Hd'].
      unfold grantTypeFixed. rewrite Hx', Hd'. split.
      { by rewrite submit_valid_form. }
      split; apply Forall_app; split; auto.
      by repeat constructor.
    + unfold exec. rewrite handleSubmit_invalid by done.
      unfold grantTypeFixed. simpl. by rewrite exchanges_snoc, dispatched_snoc, !app_nil_r.
Qed.

Lemma run_grantTypeFixed (es : list Event) (w : World) :
  grantTypeFixed w -> grantTypeFixed (run es w).
Proof.
  revert w. induction es as [|e es IH]; intros w H; [done|].
  simpl. by apply IH, step_grantTypeFixed.
Qed.

(** C5: whatever the user types and however often the form is submitted,
    the grant type in the form stays ['client_credentials'], and so does the
    grant type of every request dispatched or sent to the endpoint.  Input
    aimed at the disabled field never arrives. *)
Theorem grant_type_always_client_credentials (answers : list Response)
    (es : list Event) :
  grant_type (values (form (run es (mount answers)))) = "client_credentials"
  /\ Forall (fun request => grant_type request = "client_credentials")
       (exchanges (trace (run es (mount answers))))
  /\ Forall (fun a => match a with
                      | LoginAction params _ =>
                          grant_type params = "client_credentials"
                      | _ => True
                      end) (dispatched (trace (run es (mount answers)))).
Proof.
  apply (run_grantTypeFixed es (mount answers)).
  repeat split; constructor.
Qed.

(** * Further properties of the page *)

(** ** What an event does to the world *)

Lemma step_visit (w : World) :
  exec (step Visit) w
  = {| auth := auth w; timers := timers w; nextId := nextId w; net := net w;
       form := useForm defaultValues; trace := trace w |}.
Proof. by rewrite exec_step. Qed.

Lemma step_input_disabled (name value : string) (w : World) :
  disabled name = true -> exec (step (Input name value)) w = w.
Proof. intros H. rewrite exec_step. unfold exec. simpl. by rewrite H. Qed.

Lemma step_input (name value : string) (w : World) :
  disabled name = false ->
  exec (step (Input name value)) w
  = {| auth := auth w; timers := timers w; nextId := nextId w; net := net w;
       form := {| values := set name value (values (form w));
                  initialValues := initialValues (form w);
                  errors :=
                    match yupResolver schema (set name value (values (form w))) !! name with
                    | Some e => <[name := e]> (errors (form w))
                    | None => delete name (errors (form w))
                    end |};
       trace := trace w |}.
Proof. intros H. rewrite exec_step. unfold exec. simpl. by rewrite H. Qed.

Lemma step_login_invalid (w : World) :
  yupResolver schema (values (form w)) <> ∅ ->
  exec (step Login) w
  = {| auth := auth w; timers := timers w; nextId := nextId w; net := net w;
       form := {| values := values (form w);
                  initialValues := initialValues (form w);
                  errors := yupResolver schema (values (form w)) |};
       trace := trace w
                ++ [ConsoleError "fields error" (yupResolver schema (values (form w)))] |}.
Proof.
  intros H. rewrite exec_step. unfold exec. simpl.
  by rewrite handleSubmit_invalid.
Qed.

Lemma step_login_valid (w : World) :
  yupResolver schema (values (form w)) = ∅ ->
  exchanges (trace (exec (step Login) w))
  = exchanges (trace w) ++ [values (form w)]
  /\ dispatched (trace (exec (step Login) w))
     = dispatched (trace w) ++ submissionActions (values (form w))
  /\ form (exec (step Login) w)
     = {| values := values (form w); initialValues := values (form w);
          errors := ∅ |}.
Proof.
  intros H. rewrite exec_step. simpl handle.
  destruct (submit_valid_calls w H) as [Hx Hd].
  by rewrite Hx, Hd, submit_valid_form.
Qed.

Lemma run_invariant (P : World -> Prop) :
  (forall e w, P w -> P (exec (step e) w)) ->
  forall es w, P w -> P (run es w).
Proof.
  intros Hstep es. induction es as [|e es IH]; intros w H; [done|].
  simpl. by apply IH, Hstep.
Qed.

Lemma run_app (es1 es2 : list Event) (w : World) :
  run (es1 ++ es2) w = run es2 (run es1 w).
Proof. revert w. induction es1 as [|e es1 IH]; intros w; [done|]. simpl. apply IH. Qed.

(** ** Field access *)

Lemma get_set_eq (name value : string) (data : Values) :
  name ∈ schema -> get name (set name value data) = Some value.
Proof.
  unfold schema. intros Hin.
  repeat (apply elem_of_cons in Hin as [->|Hin]); [done..|].
  by apply elem_of_nil in Hin.
Qed.

Lemma get_set_ne (name other value : string) (data : Values) :
  other <> name -> get other (set name value data) = get other data.
Proof.
  intros Hne. unfold get, set.
  repeat case_decide; subst; try done.
Qed.

Lemma set_set (name v1 v2 : string) (data : Values) :
  set name v2 (set name v1 data) = set name v2 data.
Proof. unfold set. by repeat case_decide. Qed.

Lemma set_comm (n1 n2 v1 v2 : string) (data : Values) :
  n1 <> n2 -> set n1 v1 (set n2 v2 data) = set n2 v2 (set n1 v1 data).
Proof. intros Hne. unfold set. repeat case_decide; subst; done. Qed.

Lemma get_schema (name : string) (data : Values) :
  name ∈ schema -> exists s, get name data = Some s.
Proof.
  unfold schema. intros Hin.
  repeat (apply elem_of_cons in Hin as [->|Hin]); [by eexists..|].
  by apply elem_of_nil in Hin.
Qed.

Lemma get_outside (name : string) (data : Values) :
  name ∉ schema -> get name data = None.
Proof.
  unfold schema, get. intros Hout.
  repeat case_decide; subst; try done; exfalso; apply Hout; set_solver.
Qed.

Lemma required_spec (name : string) (value : option string) :
  required name value
  = match value with
    | Some "" | None => Some (requiredError name)
    | Some _ => None
    end.
Proof. by destruct value as [[|]|]. Qed.

(** ** The resolver's verdict *)

Lemma schema_NoDup : NoDup schema.
Proof. apply (bool_decide_unpack _). by vm_compute. Qed.

Lemma resolver_lookup_schema (data : Values) (name : string) :
  yupResolver schema data !! name
  = if decide (name ∈ schema /\ get name data = Some "")
    then Some (requiredError name) else None.
Proof.
  rewrite resolver_lookup, required_spec.
  destruct (decide (name ∈ schema)) as [Hin|Hout].
  - destruct (get_schema name data Hin) as [s ->].
    destruct s; [by rewrite decide_True|].
    rewrite decide_False; [done|]. by intros [_ ?].
  - rewrite decide_False; [done|]. by intros [? _].
Qed.

(** X1: the errors the schema produces are exactly the fields left empty.
    A field of the schema holding the empty string gets the entry
    ["<name> is a required field"] of type [required]; a field holding any
    other string (blank ones included, nothing is trimmed) and a key outside
    the schema get none; so validation passes exactly when all four fields
    are non-empty. *)
Theorem errors_are_the_empty_fields (data : Values) (name : string) :
  yupResolver schema data !! name
  = (if decide (name ∈ schema /\ get name data = Some "")
     then Some (requiredError name) else None)
  /\ (yupResolver schema data = ∅ <-> complete data)
  /\ size (yupResolver schema data)
     = length (filter (fun n => get n data = Some "") schema).
Proof.
  split; [apply resolver_lookup_schema|]. split; [apply resolver_empty|].
  rewrite <- (size_dom (D := gset string)).
  assert (dom (yupResolver schema data)
          = list_to_set (filter (fun n => get n data = Some "") schema)) as ->.
  { apply set_eq. intros n.
    rewrite elem_of_dom, resolver_lookup_schema, elem_of_list_to_set, list_elem_of_filter.
    case_decide as Hd.
    - split; [intros _; tauto|by eexists].
    - split; [by intros [? ?]|intros [? ?]; tauto]. }
  apply size_list_to_set, NoDup_filter, schema_NoDup.
Qed.

(** ** Invariants of a session on the page *)

Lemma step_requests_complete (e : Event) (w : World) :
  Forall complete (exchanges (trace w)) ->
  Forall complete (exchanges (trace (exec (step e) w))).
Proof.
  intros H. destruct e as [|name value|].
  - by rewrite step_visit.
  - destruct (disabled name) eqn:E.
    + by rewrite step_input_disabled.
    + by rewrite step_input.
  - destruct (decide (yupResolver schema (values (form w)) = ∅)) as [Hok|Hbad].
    + rewrite (proj1 (step_login_valid w Hok)).
      apply Forall_app. split; [done|].
      constructor; [by apply resolver_empty|constructor].
    + rewrite step_login_invalid by done. simpl.
      by rewrite exchanges_snoc, app_nil_r.
Qed.

Lemma step_dispatch_pairs (e : Event) (w : World) :
  dispatched (trace w) = flat_map submissionActions (exchanges (trace w)) ->
  dispatched (trace (exec (step e) w))
  = flat_map submissionActions (exchanges (trace (exec (step e) w))).
Proof.
  intros H. destruct e as [|name value|].
  - by rewrite step_visit.
  - destruct (disabled name) eqn:E.
    + by rewrite step_input_disabled.
    + by rewrite step_input.
  - destruct (decide (yupResolver schema (values (form w)) = ∅)) as [Hok|Hbad].
    + destruct (step_login_valid w Hok) as (-> & -> & _).
      rewrite flat_map_app, H. reflexivity.
    + rewrite step_login_invalid by done. simpl.
      by rewrite exchanges_snoc, dispatched_snoc, !app_nil_r.
Qed.

Lemma run_dispatch_pairs (answers : list Response) (es : list Event) :
  dispatched (trace (run es (mount answers)))
  = flat_map submissionActions (exchanges (trace (run es (mount answers)))).
Proof.
  apply (run_invariant
           (fun w => dispatched (trace w)
                     = flat_map submissionActions (exchanges (trace w)))).
  - apply step_dispatch_pairs.
  - done.
Qed.

(** X2: nothing incomplete ever leaves the page.  Whatever is typed, however
    often the page is visited and Login pressed, every [loginAction] the
    page dispatches and every request sent to the endpoint has all four
    fields non-empty. *)
Theorem requests_always_complete (answers : list Response) (es : list Event) :
  Forall (fun a => match a with
                   | LoginAction params _ => complete params
                   | _ => True
                   end) (dispatched (trace (run es (mount answers))))
  /\ Forall complete (exchanges (trace (run es (mount answers)))).
Proof.
  assert (Forall complete (exchanges (trace (run es (mount answers))))) as Hx.
  { apply (run_invariant (fun w => Forall complete (exchanges (trace w)))).
    - apply step_requests_complete.
    - constructor. }
  split; [|done]. rewrite run_dispatch_pairs.
  induction Hx as [|data rest Hdata _ IH]; simpl; [constructor|].
  constructor; [exact Hdata|]. constructor; [exact I|exact IH].
Qed.

(** X3: the page dispatches in pairs and never clears.  Over any sequence of
    events the dispatched actions are, request by request, a [loginAction]
    with that request followed at once by a [setIntervalIdAction]; the clear
    action is never among them. *)
Theorem dispatches_come_in_pairs (answers : list Response) (es : list Event) :
  dispatched (trace (run es (mount answers)))
  = flat_map submissionActions (exchanges (trace (run es (mount answers))))
  /\ clearIntervalId tt ∉ dispatched (trace (run es (mount answers))).
Proof.
  split; [apply run_dispatch_pairs|]. rewrite run_dispatch_pairs.
  intros Hin. apply list_elem_of_In, in_flat_map in Hin as (data & _ & Hin).
  unfold submissionActions in Hin. simpl in Hin.
  destruct Hin as [Hin|[Hin|[]]]; discriminate.
Qed.

Lemma resolver_set_ne (name other value : string) (data : Values) :
  other <> name ->
  yupResolver schema (set name value data) !! other
  = yupResolver schema data !! other.
Proof. intros Hne. by rewrite !resolver_lookup, get_set_ne. Qed.

Lemma step_errorsCurrent (e : Event) (w : World) :
  errorsCurrent (form w) -> errorsCurrent (form (exec (step e) w)).
Proof.
  intros H. destruct e as [|name value|].
  - rewrite step_visit. intros n e. simpl. by rewrite lookup_empty.
  - destruct (disabled name) eqn:E.
    + by rewrite step_input_disabled.
    + rewrite step_input by done. intros n e. simpl.
      destruct (decide (n = name)) as [->|Hne].
      * destruct (yupResolver schema (set name value (values (form w))) !! name)
          as [e'|] eqn:El.
        -- by rewrite lookup_insert_eq.
        -- by rewrite lookup_delete_eq.
      * rewrite (resolver_set_ne name n) by done.
        destruct (yupResolver schema (set name value (values (form w))) !! name).
        -- rewrite lookup_insert_ne by done. apply H.
        -- rewrite lookup_delete_ne by done. apply H.
  - destruct (decide (yupResolver schema (values (form w)) = ∅)) as [Hok|Hbad].
    + rewrite (proj2 (proj2 (step_login_valid w Hok))). intros n e. simpl.
      by rewrite lookup_empty.
    + rewrite step_login_invalid by done. by intros n e.
Qed.

(** X4: a message under a field is never out of date.  In every state the
    page can reach, a field that shows a helper text is a field of the form
    that is empty at that moment, and the text is its own
    ["<name> is a required field"]. *)
Theorem shown_errors_are_current (answers : list Response) (es : list Event)
    (name text : string) :
  helperText (form (run es (mount answers))) name = Some text ->
  name ∈ schema
  /\ get name (values (form (run es (mount answers)))) = Some ""
  /\ text = name +:+ " is a required field".
Proof.
  intros Hshown.
  assert (errorsCurrent (form (run es (mount answers)))) as Hcur.
  { apply (run_invariant (fun w => errorsCurrent (form w))).
    - apply step_errorsCurrent.
    - intros n e. simpl. by rewrite lookup_empty. }
  unfold helperText in Hshown.
  destruct (errors (form (run es (mount answers))) !! name) as [e|] eqn:E;
    [|done].
  injection Hshown as <-. apply Hcur in E.
  rewrite resolver_lookup_schema in E.
  case_decide as Hd; [|done]. injection E as <-. by destruct Hd.
Qed.

Lemma shown_errors_are_current_witness :
  helperText (form (run [Login] (mount []))) "scope"
  = Some "scope is a required field"
  /\ get "scope" (values (form (run [Login] (mount [])))) = Some "".
Proof.
  assert (helperText (form (run [Login] (mount []))) "scope"
          = Some "scope is a required field") as H by (by vm_compute).
  split; [exact H|].
  exact (proj1 (proj2 (shown_errors_are_current [] [Login] "scope" _ H))).
Defined.

(** ** Typing *)

(** X5: typing stays on the page.  An input event, whatever field it is
    aimed at and whatever the text, leaves store, timers and endpoint alone
    and makes no call (no dispatch, no request, no log); in the form it
    changes at most the value and the error of the field typed into. *)
Theorem typing_is_local (name value : string) (w : World) :
  auth (exec (step (Input name value)) w) = auth w
  /\ timers (exec (step (Input name value)) w) = timers w
  /\ nextId (exec (step (Input name value)) w) = nextId w
  /\ net (exec (step (Input name value)) w) = net w
  /\ trace (exec (step (Input name value)) w) = trace w
  /\ initialValues (form (exec (step (Input name value)) w))
     = initialValues (form w)
  /\ forall other, other <> name ->
       get other (values (form (exec (step (Input name value)) w)))
       = get other (values (form w))
       /\ errors (form (exec (step (Input name value)) w)) !! other
          = errors (form w) !! other.
Proof.
  destruct (disabled name) eqn:E.
  - by rewrite step_input_disabled.
  - rewrite step_input by done. simpl. repeat (split; [done|]).
    intros other Hne. split; [by apply get_set_ne|].
    destruct (yupResolver schema (set name value (values (form w))) !! name).
    + by rewrite lookup_insert_ne.
    + by rewrite lookup_delete_ne.
Qed.

Lemma resolver_set_own (name value : string) (data : Values) :
  yupResolver schema (set name value data) !! name
  = if decide (name ∈ schema /\ value = "")
    then Some (requiredError name) else None.
Proof.
  rewrite resolver_lookup_schema.
  destruct (decide (name ∈ schema)) as [Hin|Hout].
  - rewrite get_set_eq by done. destruct (decide (value = "")) as [->|Hne].
    + by rewrite !decide_True.
    + rewrite !decide_False; [done|by intros [_ ?]|by intros [_ [= ?]]].
  - rewrite !decide_False; [done|by intros [? _]|by intros [? _]].
Qed.

(** X6: the typed field answers at once.  After typing into one of the three
    editable fields the field holds the typed text, and its helper text is
    ["<name> is a required field"] if the text is empty and absent
    otherwise, whatever was shown before. *)
Theorem typing_updates_own_error (name value : string) (w : World) :
  name ∈ schema -> disabled name = false ->
  get name (values (form (exec (step (Input name value)) w))) = Some value
  /\ helperText (form (exec (step (Input name value)) w)) name
     = if decide (value = "") then Some (name +:+ " is a required field")
       else None.
Proof.
  intros Hin Hen. rewrite step_input by done. simpl.
  split; [by apply get_set_eq|].
  unfold helperText. simpl. rewrite resolver_set_own.
  destruct (decide (value = "")) as [->|Hne].
  - rewrite decide_True by done. by rewrite lookup_insert_eq.
  - rewrite decide_False by (by intros [_ ?]). by rewrite lookup_delete_eq.
Qed.

Lemma typing_updates_own_error_witness :
  "scope" ∈ schema /\ disabled "scope" = false
  /\ helperText (form (exec (step (Input "scope" "c")) (run [Login] (mount []))))
       "scope" = None
  /\ helperText (form (exec (step (Input "scope" "")) (mount []))) "scope"
     = Some "scope is a required field".
Proof.
  assert ("scope" ∈ schema) as Hin by (apply (bool_decide_unpack _); by vm_compute).
  assert (disabled "scope" = false) as Hen by reflexivity.
  split; [exact Hin|]. split; [exact Hen|]. split.
  - exact (proj2 (typing_updates_own_error "scope" "c" _ Hin Hen)).
  - exact (proj2 (typing_updates_own_error "scope" "" _ Hin Hen)).
Defined.

Lemma errors_update_twice (name : string) (o1 o2 : option FieldError)
    (errs : gmap string FieldError) :
  match o2 with
  | Some e => <[name := e]> (match o1 with
                             | Some e1 => <[name := e1]> errs
                             | None => delete name errs
                             end)
  | None => delete name (match o1 with
                         | Some e1 => <[name := e1]> errs
                         | None => delete name errs
                         end)
  end
  = match o2 with Some e => <[name := e]> errs | None => delete name errs end.
Proof.
  destruct o1, o2.
  - apply insert_insert_eq.
  - apply delete_insert_eq.
  - apply insert_delete_eq.
  - apply delete_delete_eq.
Qed.

(** X7: in one field the last text wins.  Typing twice into the same field
    leaves the world exactly as typing the second text alone would. *)
Theorem typing_last_wins (name v1 v2 : string) (w : World) :
  exec (step (Input name v2)) (exec (step (Input name v1)) w)
  = exec (step (Input name v2)) w.
Proof.
  destruct (disabled name) eqn:E.
  - by rewrite !step_input_disabled.
  - rewrite !step_input by done. simpl.
    by rewrite set_set, errors_update_twice.
Qed.

Lemma errors_update_comm (n1 n2 : string) (o1 o2 : option FieldError)
    (errs : gmap string FieldError) :
  n1 <> n2 ->
  match o1 with
  | Some e => <[n1 := e]> (match o2 with
                           | Some e2 => <[n2 := e2]> errs
                           | None => delete n2 errs
                           end)
  | None => delete n1 (match o2 with
                       | Some e2 => <[n2 := e2]> errs
                       | None => delete n2 errs
                       end)
  end
  = match o2 with
    | Some e => <[n2 := e]> (match o1 with
                             | Some e1 => <[n1 := e1]> errs
                             | None => delete n1 errs
                             end)
    | None => delete n2 (match o1 with
                         | Some e1 => <[n1 := e1]> errs
                         | None => delete n1 errs
                         end)
    end.
Proof.
  intros Hne. destruct o1, o2.
  - by apply insert_insert_ne.
  - by rewrite delete_insert_ne.
  - by rewrite delete_insert_ne.
  - apply delete_delete.
Qed.

(** X8: the order of filling in does not matter.  Typing into two different
    fields gives the same world in either order. *)
Theorem typing_commutes (n1 n2 v1 v2 : string) (w : World) :
  n1 <> n2 ->
  exec (step (Input n1 v1)) (exec (step (Input n2 v2)) w)
  = exec (step (Input n2 v2)) (exec (step (Input n1 v1)) w).
Proof.
  intros Hne.
  destruct (disabled n1) eqn:E1, (disabled n2) eqn:E2;
    rewrite ?step_input_disabled, ?step_input by done;
    rewrite ?step_input_disabled, ?step_input by done; try done.
  simpl. rewrite !resolver_set_own, (set_comm n1 n2) by done.
  by rewrite errors_update_comm.
Qed.

Lemma typing_commutes_witness :
  "client_id" <> "scope"
  /\ values (form (run [Input "scope" "c"; Input "client_id" "a"] (mount [])))
     = values (form (run [Input "client_id" "a"; Input "scope" "c"] (mount []))).
Proof.
  assert ("client_id" <> "scope") as Hne by discriminate.
  split; [exact Hne|].
  exact (f_equal (fun w => values (form w))
           (typing_commutes "client_id" "scope" "a" "c" (mount []) Hne)).
Defined.

(** ** Pressing Login *)

Lemma run_logins (n : nat) (w : World) :
  complete (values (form w)) ->
  dispatched (trace (run (replicate n Login) w))
  = dispatched (trace w)
    ++ concat (replicate n (submissionActions (values (form w))))
  /\ exchanges (trace (run (replicate n Login) w))
     = exchanges (trace w) ++ replicate n (values (form w))
  /\ values (form (run (replicate n Login) w)) = values (form w).
Proof.
  revert w. induction n as [|n IH]; intros w Hc.
  - simpl. by rewrite !app_nil_r.
  - simpl. destruct (step_login_valid w) as (Hx1 & Hd1 & Hf1);
      [by apply resolver_empty|].
    destruct (IH (exec (step Login) w)) as (Hd & Hx & Hv);
      [by rewrite Hf1|].
    rewrite Hd, Hx, Hv, Hx1, Hd1, Hf1. simpl.
    by rewrite <- !app_assoc.
Qed.

(** X9: nothing holds back a second press.  On a form with all four fields
    filled in, pressing Login n times sends the same request n times and
    dispatches the login and scheduler actions n times over; the form still
    holds the request afterwards. *)
Theorem every_press_submits_again (n : nat) (w : World) :
  complete (values (form w)) ->
  exchanges (trace (run (replicate n Login) w))
  = exchanges (trace w) ++ replicate n (values (form w))
  /\ dispatched (trace (run (replicate n Login) w))
     = dispatched (trace w)
       ++ concat (replicate n (submissionActions (values (form w))))
  /\ values (form (run (replicate n Login) w)) = values (form w).
Proof.
  intros Hc. destruct (run_logins n w Hc) as (Hd & Hx & Hv). by repeat split.
Qed.

Lemma every_press_submits_again_witness :
  let w := run (filled "a" "b" "c") (mount []) in
  complete (values (form w))
  /\ exchanges (trace (run (replicate 3 Login) w))
     = replicate 3 (mkValues "client_credentials" "a" "b" "c").
Proof.
  assert (complete (values (form (run (filled "a" "b" "c") (mount [])))))
    as Hc by (vm_compute; repeat split; discriminate).
  split; [exact Hc|].
  exact (proj1 (every_press_submits_again 3 _ Hc)).
Defined.

Lemma run_filled (a b c : string) (w : World) :
  trace (run (filled a b c) w) = trace w
  /\ values (form (run (filled a b c) w))
     = mkValues (grant_type (values (form w))) a b c.
Proof.
  unfold filled. simpl run.
  rewrite !step_input by reflexivity. by split.
Qed.

(** X10: what is typed is what is sent.  From any state of the page whose
    grant type is not empty, typing non-empty texts into client_id,
    client_secret and scope and pressing Login sends exactly one request,
    made of the grant type and the three texts, and leaves the form holding
    that request with no error shown, whatever errors and values it held
    before. *)
Theorem typed_request_is_sent (a b c : string) (w : World) :
  grant_type (values (form w)) <> "" -> a <> "" -> b <> "" -> c <> "" ->
  exchanges (trace (run (filled a b c ++ [Login]) w))
  = exchanges (trace w) ++ [mkValues (grant_type (values (form w))) a b c]
  /\ dispatched (trace (run (filled a b c ++ [Login]) w))
     = dispatched (trace w)
       ++ submissionActions (mkValues (grant_type (values (form w))) a b c)
  /\ form (run (filled a b c ++ [Login]) w)
     = {| values := mkValues (grant_type (values (form w))) a b c;
          initialValues := mkValues (grant_type (values (form w))) a b c;
          errors := ∅ |}.
Proof.
  intros Hg Ha Hb Hc. rewrite run_app.
  destruct (run_filled a b c w) as (Ht & Hv). revert Ht Hv.
  generalize (run (filled a b c) w). intros w1 Ht Hv.
  assert (yupResolver schema (values (form w1)) = ∅) as Hok.
  { apply resolver_empty. by rewrite Hv. }
  change (run [Login] w1) with (exec (step Login) w1).
  destruct (step_login_valid _ Hok) as (-> & -> & ->).
  by rewrite Hv, Ht.
Qed.

Lemma typed_request_is_sent_witness :
  grant_type (values (form (run [Login] (mount [])))) <> ""
  /\ exchanges (trace (run (filled "a" "b" "c" ++ [Login]) (run [Login] (mount []))))
     = [mkValues "client_credentials" "a" "b" "c"].
Proof.
  assert (grant_type (values (form (run [Login] (mount [])))) <> "")
    as Hg by (vm_compute; discriminate).
  split; [exact Hg|].
  exact (proj1 (typed_request_is_sent "a" "b" "c" (run [Login] (mount [])) Hg
                  ltac:(discriminate) ltac:(discriminate) ltac:(discriminate))).
Defined.

(** X11: a turned-away press can be repeated without harm.  On a form that
    fails validation a second press of Login leaves store, timers, endpoint
    and form exactly as the first press left them; all it adds is a second
    console message with the same errors. *)
Theorem rejected_press_repeats (w : World) :
  yupResolver schema (values (form w)) <> ∅ ->
  state (run [Login; Login] w) = state (run [Login] w)
  /\ trace (run [Login; Login] w)
     = trace w
       ++ [ConsoleError "fields error" (yupResolver schema (values (form w)));
           ConsoleError "fields error" (yupResolver schema (values (form w)))].
Proof.
  intros Hbad.
  change (run [Login; Login] w) with (exec (step Login) (exec (step Login) w)).
  change (run [Login] w) with (exec (step Login) w).
  rewrite (step_login_invalid w) by done.
  rewrite step_login_invalid by done. simpl.
  by rewrite <- app_assoc.
Qed.

Lemma rejected_press_repeats_witness :
  yupResolver schema (values (form (mount []))) <> ∅
  /\ state (run [Login; Login] (mount [])) = state (run [Login] (mount [])).
Proof.
  assert (yupResolver schema (values (form (mount []))) <> ∅) as Hbad.
  { apply resolver_nonempty. right. left. reflexivity. }
  split; [exact Hbad|].
  exact (proj1 (rejected_press_repeats (mount []) Hbad)).
Defined.

(** * The refresh scheduler *)

Lemma replay_snoc (t : list Call) (c : Call) :
  replay (t ++ [c]) = hostStep (replay t) c.
Proof. unfold replay. by rewrite foldl_app. Qed.

Lemma atMostOne_app (ts : gset N) (t1 t2 : list Call) :
  atMostOne ts (t1 ++ t2)
  <-> atMostOne ts t1 /\ atMostOne (foldl hostStep ts t1) t2.
Proof.
  revert ts. induction t1 as [|c t1 IH]; intros ts; simpl; [tauto|].
  rewrite IH. tauto.
Qed.

Lemma atMostOne_snoc (t : list Call) (c : Call) :
  atMostOne ∅ (t ++ [c])
  <-> atMostOne ∅ t /\ size (hostStep (replay t) c) <= 1.
Proof. rewrite atMostOne_app. simpl. unfold replay. tauto. Qed.

Lemma atMostOne_prefix (ts : gset N) (t p : list Call) :
  size ts <= 1 -> atMostOne ts t -> p `prefix_of` t ->
  size (foldl hostStep ts p) <= 1.
Proof.
  revert ts p. induction t as [|c t IH]; intros ts p Hs Ht [k Hk].
  - destruct p; [done|discriminate].
  - destruct p as [|c' p]; [done|].
    injection Hk as <- ->. destruct Ht as [Hc Ht]. simpl.
    apply (IH _ _ Hc Ht). by exists k.
Qed.

Lemma stored_size (s : AuthState) : size (stored s) <= 1.
Proof.
  unfold stored. destruct (intervalId s) as [h|]; [|by rewrite size_empty; lia].
  destruct (truthy (Some h)); [by rewrite size_singleton|rewrite size_empty; lia].
Qed.

Lemma exec_seq {A B} (c : M A) (k : M B) (w : World) :
  exec (c ;; k) w = exec k (exec c w).
Proof. unfold exec, mbind, M_bind. by destruct (c w). Qed.

Lemma exec_bind {A B} (c : M A) (k : A -> M B) (w : World) :
  exec (c ≫= k) w = exec (k (c w).1) (exec c w).
Proof. unfold exec, mbind, M_bind. by destruct (c w). Qed.

(** ** The invariant, operation by operation *)

Lemma emit_oneTimer (c : Call) (w : World) :
  (forall ts, hostStep ts c = ts) -> oneTimer w -> oneTimer (exec (emit c) w).
Proof.
  intros Hc (Hts & Hrep & Hone & Hid). unfold oneTimer, exec, emit. simpl.
  rewrite replay_snoc, atMostOne_snoc, Hc, Hrep.
  repeat split; try done. rewrite Hts. apply stored_size.
Qed.

Lemma fetchToken_oneTimer (request : Values) (w : World) :
  oneTimer w -> oneTimer (exec (fetchToken request) w).
Proof.
  intros (Hts & Hrep & Hone & Hid). unfold oneTimer, exec, fetchToken. simpl.
  rewrite replay_snoc, atMostOne_snoc, Hrep. simpl.
  repeat split; try done. rewrite Hts. apply stored_size.
Qed.

Lemma putState_oneTimer (s : AuthState) (w : World) :
  intervalId s = intervalId (auth w) ->
  oneTimer w -> oneTimer (exec (putState s) w).
Proof.
  intros Hs (Hts & Hrep & Hone & Hid). unfold oneTimer, exec, putState. simpl.
  repeat split; try done. rewrite Hts. unfold stored. by rewrite Hs.
Qed.

Lemma putForm_oneTimer (f : FormState) (w : World) :
  oneTimer w -> oneTimer (exec (putForm f) w).
Proof. by intros (Hts & Hrep & Hone & Hid). Qed.

Lemma clearIntervalIdReducer_oneTimer (w : World) :
  oneTimer w ->
  oneTimer (exec clearIntervalIdReducer w)
  /\ timers (exec clearIntervalIdReducer w) = ∅
  /\ authToken (auth (exec clearIntervalIdReducer w)) = authToken (auth w).
Proof.
  intros (Hts & Hrep & Hone & Hid).
  unfold oneTimer, exec, clearIntervalIdReducer, mbind, M_bind, stored,
    truthy in *.
  simpl. destruct (intervalId (auth w)) as [h|] eqn:Eh; simpl;
    [|by rewrite Eh].
  destruct (negb (h =? 0)%N) eqn:E0; simpl; [|by rewrite Eh, E0].
  rewrite replay_snoc, atMostOne_snoc, Hrep, Hts. unfold hostStep.
  rewrite difference_diag_L, size_empty. repeat split; try done. lia.
Qed.

Lemma setIntervalIdThunk_oneTimer (w : World) :
  oneTimer w -> oneTimer (exec setIntervalIdThunk w).
Proof.
  intros H. unfold setIntervalIdThunk. rewrite exec_bind.
  change (exec getState w) with w. change (getState w).1 with (auth w).
  destruct (authToken (auth w)); [|done].
  rewrite exec_seq.
  destruct (clearIntervalIdReducer_oneTimer w H)
    as ((Hts & Hrep & Hone & Hid) & Hempty & _).
  revert Hts Hrep Hone Hid Hempty.
  generalize (exec clearIntervalIdReducer w). intros w1 Hts Hrep Hone Hid Hempty.
  unfold oneTimer, exec, mbind, M_bind, setInterval, getState, putState, stored.
  simpl. rewrite replay_snoc, atMostOne_snoc, Hrep, Hempty. unfold hostStep.
  rewrite union_empty_r_L, size_singleton.
  destruct (N.eqb_spec (nextId w1) 0); [done|]. simpl.
  repeat split; try done. lia.
Qed.

Lemma loginThunk_oneTimer (params : Values) (router : Router) (w : World) :
  oneTimer w -> oneTimer (exec (loginThunk params router) w).
Proof.
  intros H. unfold loginThunk. rewrite exec_bind.
  pose proof (fetchToken_oneTimer params w H) as H1.
  revert H1. generalize (exec (fetchToken params) w). intros w1 H1.
  destruct (fetchToken params w).1 as [tok ttl|]; [|done].
  rewrite exec_bind.
  change (exec getState w1) with w1. change (getState w1).1 with (auth w1).
  by apply putState_oneTimer.
Qed.

Lemma dispatch_oneTimer (a : Action) (w : World) :
  oneTimer w -> oneTimer (exec (dispatch a) w).
Proof.
  intros H. unfold dispatch. rewrite exec_seq.
  assert (oneTimer (exec (emit (Dispatch a)) w)) as H1
    by (by apply emit_oneTimer).
  destruct a.
  - by apply loginThunk_oneTimer.
  - by apply setIntervalIdThunk_oneTimer.
  - by apply clearIntervalIdReducer_oneTimer.
Qed.

Lemma step_oneTimer (e : Event) (w : World) :
  oneTimer w -> oneTimer (exec (step e) w).
Proof.
  intros H. destruct e as [|name value|].
  - rewrite step_visit. exact H.
  - destruct (disabled name) eqn:E.
    + by rewrite step_input_disabled.
    + rewrite step_input by done. exact H.
  - destruct (decide (yupResolver schema (values (form w)) = ∅)) as [Hok|Hbad].
    + rewrite exec_step. unfold exec at 1. simpl handle.
      rewrite handleSubmit_valid by done.
      change (oneTimer (exec (onSubmit (values (form w))) (validated w))).
      unfold onSubmit. rewrite !exec_seq.
      apply putForm_oneTimer, dispatch_oneTimer, dispatch_oneTimer. exact H.
    + rewrite step_login_invalid by done.
      apply (emit_oneTimer (ConsoleError _ _) (validated w)); done.
Qed.

Lemma logout_oneTimer (w : World) : oneTimer w -> oneTimer (exec logout w).
Proof.
  intros H. unfold logout. rewrite exec_seq, exec_bind.
  destruct (clearIntervalIdReducer_oneTimer w H) as (H1 & _ & _).
  revert H1. generalize (exec clearIntervalIdReducer w). intros w1 H1.
  change (exec getState w1) with w1. change (getState w1).1 with (auth w1).
  by apply putState_oneTimer.
Qed.

Lemma refreshToken_oneTimer (h : N) (request : Values) (w : World) :
  oneTimer w -> oneTimer (exec (refreshToken h request) w).
Proof.
  intros H. unfold refreshToken. rewrite exec_bind.
  change (exec getTimers w) with w. change (getTimers w).1 with (timers w).
  destruct (decide (h ∈ timers w)); [|done].
  rewrite exec_bind.
  pose proof (fetchToken_oneTimer request w H) as H1.
  revert H1. generalize (exec (fetchToken request) w). intros w1 H1.
  destruct (fetchToken request w).1 as [tok ttl|].
  - rewrite exec_bind.
    change (exec getState w1) with w1. change (getState w1).1 with (auth w1).
    rewrite exec_seq.
    by apply setIntervalIdThunk_oneTimer, putState_oneTimer.
  - rewrite exec_seq, exec_bind.
    destruct (clearIntervalIdReducer_oneTimer w1 H1) as (H2 & _ & _).
    revert H2. generalize (exec clearIntervalIdReducer w1). intros w2 H2.
    change (exec getState w2) with w2. change (getState w2).1 with (auth w2).
    by apply putState_oneTimer.
Qed.

Lemma sessionRun_oneTimer (es : list SessionEvent) (w : World) :
  oneTimer w -> oneTimer (sessionRun es w).
Proof.
  revert w. induction es as [|e es IH]; intros w H; [done|].
  simpl. apply IH. destruct e as [e| |h request]; simpl.
  - by apply step_oneTimer.
  - by apply logout_oneTimer.
  - by apply refreshToken_oneTimer.
Qed.

Lemma mount_oneTimer (answers : list Response) : oneTimer (mount answers).
Proof. by repeat split. Qed.

(** C1: over every sequence of logins (granted or refused), logouts and
    refreshes (succeeding or failing), and of anything else done on the
    login page, at most one refresh timer is live: after the whole sequence,
    and after each single call made on the way, since a stored handle is
    cancelled before a new timer is created.  The timer that is live is the
    one whose handle the store holds. *)
Theorem at_most_one_timer (answers : list Response) (es : list SessionEvent) :
  live (sessionRun es (mount answers)) <= 1
  /\ (forall p, p `prefix_of` trace (sessionRun es (mount answers)) ->
                size (replay p) <= 1)
  /\ replay (trace (sessionRun es (mount answers)))
     = timers (sessionRun es (mount answers))
  /\ timers (sessionRun es (mount answers))
     = stored (auth (sessionRun es (mount answers))).
Proof.
  destruct (sessionRun_oneTimer es (mount answers) (mount_oneTimer answers))
    as (Hts & Hrep & Hone & _).
  repeat split; try done.
  - unfold live. rewrite Hts. apply stored_size.
  - intros p Hp. apply (atMostOne_prefix ∅ _ p) in Hone; try done.
    rewrite size_empty. lia.
Qed.

Example ex_two_logins :
  let w := run (filled "a" "b" "c" ++ [Login; Login])
             (mount [Granted "t" 3000; Granted "u" 3000]) in
  timers w = {[2%N]} /\ intervalId (auth w) = Some 2%N
  /\ omap (fun c => match c with
                    | SetInterval _ | ClearInterval _ => Some c
                    | _ => None
                    end) (trace w)
     = [SetInterval 1; ClearInterval 1; SetInterval 2].
Proof. by vm_compute. Qed.

Example ex_refresh_fails :
  let w := sessionRun
             ([OnPage (Input "client_id" "a"); OnPage (Input "client_secret" "b");
               OnPage (Input "scope" "c"); OnPage Login;
               TimerFires 1 (mkValues "client_credentials" "a" "b" "c");
               TimerFires 2 (mkValues "client_credentials" "a" "b" "c")])
             (mount [Granted "t" 3000; Granted "u" 3000; AuthError]) in
  timers w = ∅ /\ auth w = mkAuthState None None None
  /\ exchanges (trace w) = replicate 3 (mkValues "client_credentials" "a" "b" "c").
Proof. by vm_compute. Qed.


